(** * Portfolio gallery: the category filter of [src/components/Portfolio.tsx]

    The component keeps one piece of state, [filter] (created by
    [useState('all')]), renders one button per entry of [categories] whose
    click handler calls [setFilter(category.id)], and shows

      [filter === 'all' ? projects
                        : projects.filter(project => project.category === filter)]

    This file embeds the project records, the two literals, the filtering
    expression (as a pure function and as a computation over a store of
    arrays that may throw), and the component's state transitions. *)

From Stdlib Require Import ZArith List Bool Ascii String Permutation.
From stdpp Require Import base option list strings gmap.
Import ListNotations.

Local Open Scope string_scope.
Local Open Scope Z_scope.

(** ** Data model *)

(** An element of the [projects] literal.  Strings are sequences of bytes
    (the source text is UTF-8); [===] on two strings is equality of the
    sequences. *)
Record Project := mkProject {
  id : Z;
  title : string;
  category : string;
  description : string;
  image : string;
  tags : list string;
  color : string
}.

(** An element of the [categories] literal; named [Category] after the loop
    variable [category] of the button row. *)
Record Category := mkCategory {
  cat_id : string;
  name : string
}.

#[global] Instance Project_eq_dec : EqDecision Project.
Proof. solve_decision. Defined.

#[global] Instance Category_eq_dec : EqDecision Category.
Proof. solve_decision. Defined.

(** ** The literals of the component (lines 13-74) *)

Definition projects : list Project := [
  {| id := 1;
     title := "电商应用重设计";
     category := "mobile";
     description := "为某知名电商平台设计的移动端应用界面，提升了用户购物体验和转化率。";
     image := "/api/placeholder/400/300";
     tags := ["UI/UX"; "Mobile"; "E-commerce"];
     color := "from-blue-500 to-purple-600" |};
  {| id := 2;
     title := "金融科技仪表板";
     category := "web";
     description := "为金融科技公司设计的数据可视化仪表板，让复杂数据一目了然。";
     image := "/api/placeholder/400/300";
     tags := ["Dashboard"; "Fintech"; "Data Viz"];
     color := "from-green-500 to-blue-600" |};
  {| id := 3;
     title := "健康管理应用";
     category := "mobile";
     description := "专注于用户健康管理的移动应用，简洁的界面设计提升了用户粘性。";
     image := "/api/placeholder/400/300";
     tags := ["Healthcare"; "Mobile"; "Wellness"];
     color := "from-pink-500 to-red-600" |};
  {| id := 4;
     title := "企业官网重构";
     category := "web";
     description := "为科技企业设计的响应式官网，现代化的设计语言提升了品牌形象。";
     image := "/api/placeholder/400/300";
     tags := ["Website"; "Corporate"; "Responsive"];
     color := "from-purple-500 to-indigo-600" |};
  {| id := 5;
     title := "社交媒体工具";
     category := "web";
     description := "为内容创作者设计的社交媒体管理工具，直观的界面提高了工作效率。";
     image := "/api/placeholder/400/300";
     tags := ["Social Media"; "Tools"; "Productivity"];
     color := "from-orange-500 to-pink-600" |};
  {| id := 6;
     title := "教育平台界面";
     category := "mobile";
     description := "在线教育平台的移动端设计，友好的界面让学习变得更加轻松愉快。";
     image := "/api/placeholder/400/300";
     tags := ["Education"; "Mobile"; "Learning"];
     color := "from-teal-500 to-green-600" |}
].

Definition categories : list Category := [
  {| cat_id := "all"; name := "全部" |};
  {| cat_id := "web"; name := "网页设计" |};
  {| cat_id := "mobile"; name := "移动应用" |}
].

(** A project with tag [c] whose display-only fields are blank. *)
Definition item (i : Z) (c : string) : Project :=
  {| id := i; title := ""; category := c; description := ""; image := "";
     tags := []; color := "" |}.

(** ** The filtering expression (line 76) *)

(** [project => project.category === filter] *)
Definition matches (filter : string) (project : Project) : bool :=
  String.eqb (category project) filter.

(** [filter === 'all' ? projects : projects.filter(...)], with the list and
    the selected category as arguments. *)
Definition filteredProjects (projects : list Project) (filter : string)
  : list Project :=
  if String.eqb filter "all" then projects
  else List.filter (matches filter) projects.

(** ** What the callers see: component state and events (lines 11, 122-136) *)

(** The one state cell of the component, [const [filter, setFilter] = ...]. *)
Record State := mkState { filter : string }.

Definition useState (initialState : string) : State :=
  {| filter := initialState |}.

(** State of a freshly mounted component: [useState('all')]. *)
Definition mount : State := useState "all".

(** The setter replaces the cell; the next render reads the new value. *)
Definition setFilter (value : string) (s : State) : State :=
  {| filter := value |}.

(** [onClick={() => setFilter(category.id)}] of the button drawn for
    [category]. *)
Definition onClick (category : Category) (s : State) : State :=
  setFilter (cat_id category) s.

(** What a render shows in the project grid. *)
Definition render (s : State) : list Project :=
  filteredProjects projects (filter s).

(** The only writers of the state are the buttons of the filter row, one per
    element of [categories]. *)
Inductive Event := Click (category : Category).

Definition selected (e : Event) : string :=
  match e with Click category => cat_id category end.

Definition offered (e : Event) : Prop :=
  match e with Click category => category ∈ categories end.

Inductive step : State → Event → State → Prop :=
| step_click (s : State) (category : Category) :
    category ∈ categories →
    step s (Click category) (onClick category s).

Inductive steps : State → list Event → State → Prop :=
| steps_done (s : State) : steps s [] s
| steps_next (s s' s'' : State) (e : Event) (es : list Event) :
    step s e s' → steps s' es s'' → steps s (e :: es) s''.

(** The same transitions as a function, for running event sequences. *)
Fixpoint run (s : State) (es : list Event) : State :=
  match es with
  | [] => s
  | Click category :: es' => run (onClick category s) es'
  end.

(** ** Line 76 as the runtime evaluates it

    Arrays are objects in a store and are passed by reference; an element of
    an array is a project object or, for a list that is not well typed,
    [undefined] or [null].  Reading a property of [undefined] or [null], or
    calling [.filter] on a reference that holds no array, throws
    [TypeError].  [Array.prototype.filter] builds a new array and leaves its
    receiver as it was. *)

Inductive value :=
| VUndefined
| VNull
| VObject (o : Project).

Inductive error := TypeError.

Inductive completion (A : Type) :=
| Normal (a : A)
| Throw (e : error).
Arguments Normal {A} a.
Arguments Throw {A} e.

Abbreviation loc := nat.
Abbreviation store := (gmap nat (list value)).

(** A computation reads and writes the store and completes normally or
    abruptly. *)
Definition Eval (A : Type) : Type := store → completion A * store.

#[global] Instance Eval_ret : MRet Eval := λ A a σ, (Normal a, σ).

#[global] Instance Eval_bind : MBind Eval := λ A B k m σ,
  match m σ with
  | (Normal a, σ') => k a σ'
  | (Throw e, σ') => (Throw e, σ')
  end.

Definition throw {A : Type} (e : error) : Eval A := λ σ, (Throw e, σ).

(** The elements of the array behind a reference. *)
Definition elements_of (arr : loc) : Eval (list value) := λ σ,
  match σ !! arr with
  | Some vs => (Normal vs, σ)
  | None => (Throw TypeError, σ)
  end.

(** A new array object. *)
Definition new_array (vs : list value) : Eval loc := λ σ,
  let arr := fresh (dom σ) in (Normal arr, <[arr := vs]> σ).

(** [project.category] *)
Definition get_category (project : value) : Eval string :=
  match project with
  | VObject o => mret (category o)
  | VUndefined | VNull => throw TypeError
  end.

(** The loop of [Array.prototype.filter]: elements in index order, the
    callback called on each, the selected ones kept. *)
Fixpoint filter_elements (callbackfn : value → Eval bool) (vs : list value)
  : Eval (list value) :=
  match vs with
  | [] => mret []
  | v :: vs' =>
      keep ← callbackfn v;
      kept ← filter_elements callbackfn vs';
      mret (if keep : bool then v :: kept else kept)
  end.

Definition Array_filter (arr : loc) (callbackfn : value → Eval bool)
  : Eval loc :=
  vs ← elements_of arr;
  kept ← filter_elements callbackfn vs;
  new_array kept.

(** [project => project.category === filter] *)
Definition callback (filter : string) (project : value) : Eval bool :=
  c ← get_category project; mret (String.eqb c filter).

(** [filter === 'all' ? projects : projects.filter(project =>
    project.category === filter)] with [projects] a reference. *)
Definition filteredProjects_eval (projects : loc) (filter : string)
  : Eval loc :=
  if String.eqb filter "all" then mret projects
  else Array_filter projects (callback filter).

(** What an observer of the result sees: the error, or the elements of the
    array that came back. *)
Definition observe (r : completion loc * store)
  : completion (option (list value)) :=
  match r with
  | (Normal arr, σ) => Normal (σ !! arr)
  | (Throw e, _) => Throw e
  end.

(** A well-typed array of projects holds objects only. *)
Definition array_of (L : list Project) : list value := VObject <$> L.

(** ** Vocabulary of the properties *)

(** Every element of [K] carries the tag [c]. *)
Definition in_category (c : string) (K : list Project) : Prop :=
  Forall (λ p, category p = c) K.

(** No element of [L] carries the tag [c]. *)
Definition absent (c : string) (L : list Project) : Prop :=
  Forall (λ p, category p ≠ c) L.

(** [K] is the selection of category [c] out of [L]: its elements carry
    [c], it is a sub-sequence of [L] (order and multiplicity kept), and it
    leaves out no occurrence in [L] of an element tagged [c], that is, every
    sub-sequence of [L] tagged [c] throughout is already inside [K]. *)
Definition selection (c : string) (L K : list Project) : Prop :=
  in_category c K
  ∧ K `sublist_of` L
  ∧ ∀ K', K' `sublist_of` L → in_category c K' → K' `sublist_of` K.

(** ** What a render draws (lines 122-136 and 146-201) *)

(** A button of the filter row: [key], [className] and the text inside. *)
Record Button := mkButton {
  key : string;
  className : string;
  label : string
}.

(** The class of the selected button and of the others. *)
Definition activeClass : string := "bg-primary-500 text-white glow-effect".
Definition idleClass : string :=
  "bg-gray-800 text-gray-300 hover:bg-gray-700".

(** The template literal of lines 126-130. *)
Definition buttonClassName (filter : string) (category : Category) : string :=
  "px-6 py-3 rounded-full font-medium transition-all duration-300 "
  +:+ (if String.eqb filter (cat_id category) then activeClass else idleClass).

(** [categories.map((category) => <motion.button ...>)] *)
Definition filterButtons (categories : list Category) (filter : string)
  : list Button :=
  (λ category,
     {| key := cat_id category;
        className := buttonClassName filter category;
        label := name category |}) <$> categories.

(** A button is drawn as selected when its class ends in [activeClass]. *)
Definition highlighted (b : Button) : bool :=
  String.eqb (className b)
    ("px-6 py-3 rounded-full font-medium transition-all duration-300 "
     +:+ activeClass).

(** A card of the project grid: [key], the class of the coloured panel, the
    number shown on it, heading, paragraph, and one chip per tag, keyed by
    the tag. *)
Record Card := mkCard {
  card_key : Z;
  panelClass : string;
  number : Z;
  heading : string;
  paragraph : string;
  chips : list string
}.

Definition projectCard (project : Project) : Card :=
  {| card_key := id project;
     panelClass := "w-full h-full bg-gradient-to-br " +:+ color project
                   +:+ " flex items-center justify-center";
     number := id project;
     heading := title project;
     paragraph := description project;
     chips := tags project |}.

(** [filteredProjects.map((project, index) => <motion.div ...>)] *)
Definition projectGrid (filteredProjects : list Project) : list Card :=
  projectCard <$> filteredProjects.

(** The states the component can be in: those a sequence of clicks on its
    buttons leads to from the mounted state. *)
Definition reachable (s : State) : Prop := ∃ es, steps mount es s.

(** ** The validators of [src/docs/FUNCTION_DOCUMENTATION.md] (lines 322-376)

    For these a string is what the runtime holds: a sequence of 16-bit code
    units.  [.length] counts units, and a regular expression without the [u]
    flag reads one unit at a time. *)

Abbreviation code_units := (list N).

(** The units of a literal made of ASCII characters. *)
Definition units (s : string) : code_units :=
  N_of_ascii <$> list_ascii_of_string s.

(** Regular expressions, as far as the two validators use them: classes of
    units, sequence and repetition, closed under derivatives. *)
Inductive regex :=
| Never
| Empty
| Class (f : N → bool)
| Seq (r1 r2 : regex)
| Alt (r1 r2 : regex)
| Star (r : regex).

(** [r+] *)
Definition Plus (r : regex) : regex := Seq r (Star r).

(** The strings a pattern matches from its first unit to its last. *)
Inductive lang : regex → code_units → Prop :=
| lang_Empty : lang Empty []
| lang_Class (f : N → bool) (u : N) : f u = true → lang (Class f) [u]
| lang_Seq (r1 r2 : regex) (s1 s2 : code_units) :
    lang r1 s1 → lang r2 s2 → lang (Seq r1 r2) (s1 ++ s2)
| lang_Alt_l (r1 r2 : regex) (s : code_units) :
    lang r1 s → lang (Alt r1 r2) s
| lang_Alt_r (r1 r2 : regex) (s : code_units) :
    lang r2 s → lang (Alt r1 r2) s
| lang_Star_nil (r : regex) : lang (Star r) []
| lang_Star_cons (r : regex) (s1 s2 : code_units) :
    lang r s1 → lang (Star r) s2 → lang (Star r) (s1 ++ s2).

Fixpoint nullable (r : regex) : bool :=
  match r with
  | Never => false
  | Empty => true
  | Class _ => false
  | Seq r1 r2 => nullable r1 && nullable r2
  | Alt r1 r2 => nullable r1 || nullable r2
  | Star _ => true
  end.

Fixpoint deriv (u : N) (r : regex) : regex :=
  match r with
  | Never => Never
  | Empty => Never
  | Class f => if f u then Empty else Never
  | Seq r1 r2 =>
      Alt (Seq (deriv u r1) r2) (if nullable r1 then deriv u r2 else Never)
  | Alt r1 r2 => Alt (deriv u r1) (deriv u r2)
  | Star r1 => Seq (deriv u r1) (Star r1)
  end.

(** Matching a whole string: the pattern stands between [^] and [$]. *)
Fixpoint accepts (r : regex) (s : code_units) : bool :=
  match s with
  | [] => nullable r
  | u :: s' => accepts (deriv u r) s'
  end.

(** A pattern without anchors matches when some stretch of the string
    does. *)
Definition anywhere (r : regex) : regex :=
  Seq (Star (Class (λ _, true))) (Seq r (Star (Class (λ _, true)))).

(** [regex.test(str)] for a pattern without flags. *)
Definition RegExp_test (r : regex) (str : code_units) : bool := accepts r str.

(** The classes of the two validators. *)
Definition in_range (lo hi u : N) : bool := ((lo <=? u) && (u <=? hi))%N.

(** [[A-Z]], [[a-z]] and [\d] *)
Definition upper_case : N → bool := in_range 65 90.
Definition lower_case : N → bool := in_range 97 122.
Definition digit : N → bool := in_range 48 57.

(** The class of line 364: ! @ # $ % ^ & * ( ) , . ? double quote : { } | < > *)
Definition special_char (u : N) : bool :=
  existsb (N.eqb u)
    [33; 64; 35; 36; 37; 94; 38; 42; 40; 41; 44; 46; 63; 34; 58; 123; 125;
     124; 60; 62]%N.

(** [\s]: tab, line feed, vertical tab, form feed, carriage return, space,
    no-break space, U+1680, U+2000 to U+200A, U+2028, U+2029, U+202F,
    U+205F, U+3000 and U+FEFF. *)
Definition white_space (u : N) : bool :=
  existsb (N.eqb u)
    [9; 10; 11; 12; 13; 32; 160; 5760; 8232; 8233; 8239; 8287; 12288; 65279]%N
  || in_range 8192 8202 u.

(** [[^\s@]] *)
Definition not_space_at (u : N) : bool := negb (white_space u || (u =? 64)%N).

(** [/^[^\s@]+@[^\s@]+\.[^\s@]+$/] *)
Definition emailRegex : regex :=
  Seq (Plus (Class not_space_at))
    (Seq (Class (N.eqb 64))
       (Seq (Plus (Class not_space_at))
          (Seq (Class (N.eqb 46)) (Plus (Class not_space_at))))).

Definition validateEmail (email : code_units) : bool :=
  RegExp_test emailRegex email.

(** The [options] of [validatePassword]; a property left out is
    [undefined] and takes its default. *)
Record PasswordOptions := mkPasswordOptions {
  minLength : option Z;
  requireUppercase : option bool;
  requireLowercase : option bool;
  requireNumbers : option bool;
  requireSpecialChars : option bool
}.

(** [{}] *)
Definition no_options : PasswordOptions :=
  {| minLength := None; requireUppercase := None; requireLowercase := None;
     requireNumbers := None; requireSpecialChars := None |}.

Record PasswordResult := mkPasswordResult {
  isValid : bool;
  errors : list string
}.

(** [errors.push(message)] when the test holds. *)
Definition push_if (test : bool) (message : string) (errors : list string)
  : list string :=
  if test then (errors ++ [message])%list else errors.

(** [validatePassword(password, options = {})].  [minLength] is a whole
    number; [Number_toString] is the text the runtime puts for it into the
    template literal of line 353. *)
Definition validatePassword (Number_toString : Z → string)
    (password : code_units) (options : option PasswordOptions)
  : PasswordResult :=
  let options := default no_options options in
  let minLength := default 8 (minLength options) in
  let requireUppercase := default true (requireUppercase options) in
  let requireLowercase := default true (requireLowercase options) in
  let requireNumbers := default true (requireNumbers options) in
  let requireSpecialChars := default true (requireSpecialChars options) in
  let errors := [] in
  let errors :=
    push_if (Z.of_nat (length password) <? minLength)
      ("Password must be at least " +:+ Number_toString minLength
       +:+ " characters long") errors in
  let errors :=
    push_if (requireUppercase
             && negb (RegExp_test (anywhere (Class upper_case)) password))
      "Password must contain at least one uppercase letter" errors in
  let errors :=
    push_if (requireLowercase
             && negb (RegExp_test (anywhere (Class lower_case)) password))
      "Password must contain at least one lowercase letter" errors in
  let errors :=
    push_if (requireNumbers
             && negb (RegExp_test (anywhere (Class digit)) password))
      "Password must contain at least one number" errors in
  let errors :=
    push_if (requireSpecialChars
             && negb (RegExp_test (anywhere (Class special_char)) password))
      "Password must contain at least one special character" errors in
  {| isValid := Nat.eqb (length errors) 0; errors := errors |}.

(** The five messages in the order of the five checks. *)
Definition passwordMessages (Number_toString : Z → string) (minLength : Z)
  : list string :=
  [ "Password must be at least " +:+ Number_toString minLength
    +:+ " characters long";
    "Password must contain at least one uppercase letter";
    "Password must contain at least one lowercase letter";
    "Password must contain at least one number";
    "Password must contain at least one special character" ].

(** The requirements in force, written out for a password. *)
Definition meets (password : code_units) (options : PasswordOptions) : Prop :=
  default 8 (minLength options) ≤ Z.of_nat (length password)
  ∧ (default true (requireUppercase options) → Exists (λ u, upper_case u) password)
  ∧ (default true (requireLowercase options) → Exists (λ u, lower_case u) password)
  ∧ (default true (requireNumbers options) → Exists (λ u, digit u) password)
  ∧ (default true (requireSpecialChars options) →
       Exists (λ u, special_char u) password).

(** * Properties *)

(** ** The spec's three concrete scenarios *)

Example scenario_mobile :
  filteredProjects [item 1 "mobile"; item 2 "web"; item 3 "mobile"] "mobile"
  = [item 1 "mobile"; item 3 "mobile"].
Proof. reflexivity. Qed.

Example scenario_all :
  filteredProjects [item 1 "mobile"; item 2 "web"; item 3 "mobile"] "all"
  = [item 1 "mobile"; item 2 "web"; item 3 "mobile"].
Proof. reflexivity. Qed.

Example scenario_desktop :
  filteredProjects [item 1 "mobile"; item 2 "web"; item 3 "mobile"] "desktop"
  = [].
Proof. reflexivity. Qed.

(** ** The pure function *)

Lemma matches_spec (c : string) (p : Project) :
  matches c p = true ↔ category p = c.
Proof. unfold matches. apply String.eqb_eq. Qed.

Lemma filteredProjects_other (L : list Project) (c : string) :
  c ≠ "all" → filteredProjects L c = List.filter (matches c) L.
Proof.
  intros Hc. unfold filteredProjects.
  destruct (String.eqb_spec c "all") as [->|_]; [by destruct Hc | done].
Qed.

Section list_filter.
Context {A : Type} (f : A → bool).

Lemma list_filter_sublist (l : list A) : List.filter f l `sublist_of` l.
Proof.
  induction l as [|x l IH]; simpl; [constructor|].
  destruct (f x); by constructor.
Qed.

Lemma list_filter_Forall (l : list A) :
  Forall (λ x, f x = true) (List.filter f l).
Proof.
  induction l as [|x l IH]; simpl; [constructor|].
  destruct (f x) eqn:Hx; [by constructor | done].
Qed.

Lemma list_filter_greatest (k l : list A) :
  k `sublist_of` l → Forall (λ x, f x = true) k →
  k `sublist_of` List.filter f l.
Proof.
  induction 1 as [|x k l Hkl IH|x k l Hkl IH]; intros Hk; simpl.
  - constructor.
  - apply Forall_cons in Hk as [-> Hk]. constructor. by apply IH.
  - destruct (f x); [apply sublist_cons_r; left|]; by apply IH.
Qed.

Lemma list_filter_fixed (l : list A) :
  Forall (λ x, f x = true) l → List.filter f l = l.
Proof.
  induction 1 as [|x l Hx _ IH]; simpl; [done|]. by rewrite Hx, IH.
Qed.

Lemma list_filter_none (l : list A) :
  Forall (λ x, f x = false) l → List.filter f l = [].
Proof.
  induction 1 as [|x l Hx _ IH]; simpl; [done|]. by rewrite Hx.
Qed.
End list_filter.

Lemma in_category_matches (c : string) (K : list Project) :
  in_category c K ↔ Forall (λ p, matches c p = true) K.
Proof.
  unfold in_category. apply Forall_proper; [|done].
  intros p. symmetry. apply matches_spec.
Qed.

Lemma filteredProjects_sublist (L : list Project) (c : string) :
  filteredProjects L c `sublist_of` L.
Proof.
  unfold filteredProjects. destruct (String.eqb c "all"); [done|].
  apply list_filter_sublist.
Qed.

Lemma filteredProjects_greatest (L K : list Project) (c : string) :
  K `sublist_of` L → in_category c K → K `sublist_of` filteredProjects L c.
Proof.
  intros HK Hc. unfold filteredProjects.
  destruct (String.eqb c "all"); [done|].
  apply list_filter_greatest; [done|]. by apply in_category_matches.
Qed.

Lemma filteredProjects_absent (L : list Project) (c : string) :
  c ≠ "all" → absent c L → filteredProjects L c = [].
Proof.
  intros Hc Habs. rewrite filteredProjects_other by done.
  apply list_filter_none. eapply Forall_impl; [exact Habs|].
  intros p Hp. simpl in Hp. destruct (matches c p) eqn:Hm; [|done].
  by apply matches_spec in Hm.
Qed.

(** A selection is determined by the list and the tag. *)
Lemma selection_unique (c : string) (L K1 K2 : list Project) :
  selection c L K1 → selection c L K2 → K1 = K2.
Proof.
  intros (Hc1 & Hs1 & Hm1) (Hc2 & Hs2 & Hm2).
  apply (anti_symm sublist); auto.
Qed.

(** C1, as the spec words it, fails on the sentinel: with ["all"] selected
    the one-project list comes back whole, and its project is tagged
    ["mobile"], not ["all"]. *)
Lemma selection_all_counterexample :
  ¬ selection "all" [item 1 "mobile"]
      (filteredProjects [item 1 "mobile"] "all").
Proof.
  intros [Hcat _]. unfold in_category in Hcat.
  apply Forall_cons in Hcat as [Hp _]. discriminate Hp.
Qed.

(** C1 (amended): for every list [L] and every tag [c], [filteredProjects L c]
    is a sub-sequence of [L] (same relative order, nothing duplicated) that
    omits no occurrence of an element tagged [c]; when [c] is not the
    sentinel ["all"], every element of it is tagged [c]; and when [c] is the
    sentinel, it is [L] itself, whatever the tags of its elements. *)
Theorem filteredProjects_selection (L : list Project) (c : string) :
  (c ≠ "all" → in_category c (filteredProjects L c))
  ∧ (c = "all" → filteredProjects L c = L)
  ∧ filteredProjects L c `sublist_of` L
  ∧ (∀ K', K' `sublist_of` L → in_category c K' →
           K' `sublist_of` filteredProjects L c).
Proof.
  split; [|split; [|split]].
  - intros Hc. rewrite filteredProjects_other by done.
    apply in_category_matches, list_filter_Forall.
  - by intros ->.
  - apply filteredProjects_sublist.
  - intros K' HK' Hc. by apply filteredProjects_greatest.
Qed.

Lemma filteredProjects_selection_witness :
  selection "mobile" projects (filteredProjects projects "mobile")
  ∧ filteredProjects projects "all" = projects.
Proof.
  destruct (filteredProjects_selection projects "mobile") as (H1 & _ & H2 & H3).
  destruct (filteredProjects_selection projects "all") as (_ & Hall & _ & _).
  split; [|by apply Hall].
  split; [|split]; [apply H1; discriminate | exact H2 | exact H3].
Defined.

(** C2: on the sentinel ["all"] the list comes back as it is, same elements
    in the same order. *)
Theorem filteredProjects_all (L : list Project) :
  filteredProjects L "all" = L.
Proof. reflexivity. Qed.

(** C5: filtering twice by the same tag is filtering once. *)
Theorem filteredProjects_idempotent (L : list Project) (c : string) :
  filteredProjects (filteredProjects L c) c = filteredProjects L c.
Proof.
  unfold filteredProjects. destruct (String.eqb c "all"); [done|].
  apply list_filter_fixed, list_filter_Forall.
Qed.

(** ** The evaluation over the store *)

Lemma filteredProjects_eval_unfold (l : loc) (c : string) :
  filteredProjects_eval l c
  = if String.eqb c "all" then mret l else Array_filter l (callback c).
Proof. reflexivity. Qed.

Lemma callback_eq (c : string) (v : value) (σ : store) :
  callback c v σ
  = (match v with
     | VObject o => Normal (matches c o)
     | VUndefined | VNull => Throw TypeError
     end, σ).
Proof. by destruct v. Qed.

Lemma filter_elements_cons (cb : value → Eval bool) (v : value)
    (vs : list value) (σ : store) :
  filter_elements cb (v :: vs) σ
  = match cb v σ with
    | (Normal keep, σ') =>
        match filter_elements cb vs σ' with
        | (Normal kept, σ'') => (Normal (if keep then v :: kept else kept), σ'')
        | (Throw e, σ'') => (Throw e, σ'')
        end
    | (Throw e, σ') => (Throw e, σ')
    end.
Proof. reflexivity. Qed.

(** The loop reads no array and writes none: its completion depends on the
    elements and the tag only, and the store passes through. *)
Lemma filter_elements_store (c : string) (vs : list value) (σ : store) :
  (filter_elements (callback c) vs σ).2 = σ.
Proof.
  induction vs as [|v vs IH]; [done|].
  rewrite filter_elements_cons, callback_eq.
  destruct v as [| |o]; [done..|].
  by destruct (filter_elements (callback c) vs σ) as [[kept|e] σ'].
Qed.

Lemma filter_elements_completion (c : string) (vs : list value)
    (σ1 σ2 : store) :
  (filter_elements (callback c) vs σ1).1
  = (filter_elements (callback c) vs σ2).1.
Proof.
  induction vs as [|v vs IH]; [done|].
  rewrite !filter_elements_cons, !callback_eq.
  destruct v as [| |o]; [done..|].
  destruct (filter_elements (callback c) vs σ1) as [[k1|e1] σ1'],
           (filter_elements (callback c) vs σ2) as [[k2|e2] σ2'];
    cbn in *; simplify_eq; done.
Qed.

Lemma filter_elements_array_of (c : string) (L : list Project) (σ : store) :
  filter_elements (callback c) (array_of L) σ
  = (Normal (array_of (List.filter (matches c) L)), σ).
Proof.
  induction L as [|p L IH]; [done|].
  change (array_of (p :: L)) with (VObject p :: array_of L).
  rewrite filter_elements_cons, callback_eq, IH. cbn.
  by destruct (matches c p).
Qed.

Lemma fresh_unused (σ : store) : σ !! fresh (dom σ) = None.
Proof. apply not_elem_of_dom, is_fresh. Qed.

(** Nothing that was in the store is changed by the evaluation. *)
Lemma filteredProjects_eval_frame (l : loc) (c : string) (σ : store) :
  σ ⊆ (filteredProjects_eval l c σ).2.
Proof.
  rewrite filteredProjects_eval_unfold.
  destruct (String.eqb c "all"); [done|].
  unfold Array_filter, elements_of, new_array, mbind, Eval_bind.
  destruct (σ !! l) as [vs|]; [|done].
  pose proof (filter_elements_store c vs σ) as Hσ.
  destruct (filter_elements (callback c) vs σ) as [[kept|e] σ'];
    cbn in *; subst σ'; [|done].
  apply insert_subseteq, fresh_unused.
Qed.

(** What comes back depends on the elements behind the reference and on the
    tag, not on where the array lives or on what else is in the store. *)
Lemma filteredProjects_eval_observe (c : string) (l1 l2 : loc)
    (σ1 σ2 : store) :
  σ1 !! l1 = σ2 !! l2 →
  observe (filteredProjects_eval l1 c σ1)
  = observe (filteredProjects_eval l2 c σ2).
Proof.
  intros Heq. rewrite !filteredProjects_eval_unfold.
  destruct (String.eqb c "all"); [cbn; by rewrite Heq|].
  unfold Array_filter, elements_of, new_array, mbind, Eval_bind.
  rewrite Heq. destruct (σ2 !! l2) as [vs|]; [|done].
  pose proof (filter_elements_store c vs σ1) as H1.
  pose proof (filter_elements_store c vs σ2) as H2.
  pose proof (filter_elements_completion c vs σ1 σ2) as H12.
  destruct (filter_elements (callback c) vs σ1) as [[k1|e1] σ1'],
           (filter_elements (callback c) vs σ2) as [[k2|e2] σ2'];
    cbn in *; subst; try congruence.
  rewrite !lookup_insert_eq. congruence.
Qed.

(** On a well-typed array the evaluation completes normally with the
    elements that the pure function computes. *)
Lemma filteredProjects_eval_correct (L : list Project) (c : string)
    (l : loc) (σ : store) :
  σ !! l = Some (array_of L) →
  observe (filteredProjects_eval l c σ)
  = Normal (Some (array_of (filteredProjects L c))).
Proof.
  intros Hl. rewrite filteredProjects_eval_unfold. unfold filteredProjects.
  destruct (String.eqb c "all"); [cbn; by rewrite Hl|].
  unfold Array_filter, elements_of, new_array, mbind, Eval_bind.
  rewrite Hl, filter_elements_array_of. cbn. by rewrite lookup_insert_eq.
Qed.

(** The abrupt completions of the model are reachable, on inputs that are not
    well typed. *)
Example undefined_element_throws :
  observe (filteredProjects_eval 0%nat "web" {[ 0%nat := [VUndefined] ]})
  = Throw TypeError.
Proof. reflexivity. Qed.

Example undefined_element_all :
  observe (filteredProjects_eval 0%nat "all" {[ 0%nat := [VUndefined] ]})
  = Normal (Some [VUndefined]).
Proof. reflexivity. Qed.

Example no_array_throws :
  observe (filteredProjects_eval 0%nat "web" ∅) = Throw TypeError.
Proof. reflexivity. Qed.

(** C3, as the spec words it, fails on the sentinel: no project of the
    gallery is tagged ["all"], and selecting ["all"] shows all six. *)
Lemma absent_all_counterexample :
  absent "all" projects ∧ filteredProjects projects "all" ≠ [].
Proof. split; [by repeat constructor | discriminate]. Qed.

(** C3 (amended): for every list [L] and every tag [c] other than the
    sentinel ["all"] that no element of [L] carries, [filteredProjects L c]
    is the empty list, and the evaluation completes normally with an empty
    array: the tag is not validated and nothing is thrown. *)
Theorem filteredProjects_absent_empty (L : list Project) (c : string) :
  c ≠ "all" → absent c L →
  filteredProjects L c = []
  ∧ ∀ (σ : store) (l : loc), σ !! l = Some (array_of L) →
      observe (filteredProjects_eval l c σ) = Normal (Some []).
Proof.
  intros Hc Habs. pose proof (filteredProjects_absent L c Hc Habs) as Hnil.
  split; [done|]. intros σ l Hl.
  by rewrite (filteredProjects_eval_correct L c l σ Hl), Hnil.
Qed.

Lemma filteredProjects_absent_empty_witness :
  filteredProjects projects "desktop" = []
  ∧ observe (filteredProjects_eval 7%nat "desktop"
               {[ 7%nat := array_of projects ]}) = Normal (Some []).
Proof.
  destruct (filteredProjects_absent_empty projects "desktop") as [H1 H2].
  - discriminate.
  - by repeat constructor.
  - split; [exact H1|]. apply H2. reflexivity.
Defined.

(** C4: on every well-typed input, a reference to an array of project
    objects of any length and any string as the tag, the evaluation completes
    normally with the array computed by [filteredProjects]; it never throws,
    and an empty array is a normal completion like any other. *)
Theorem filteredProjects_eval_total (L : list Project) (c : string)
    (σ : store) (l : loc) :
  σ !! l = Some (array_of L) →
  (∃ (l' : loc) (σ' : store),
      filteredProjects_eval l c σ = (Normal l', σ')
      ∧ σ' !! l' = Some (array_of (filteredProjects L c)))
  ∧ (∀ e σ', filteredProjects_eval l c σ ≠ (Throw e, σ'))
  ∧ (filteredProjects L c = [] →
      observe (filteredProjects_eval l c σ) = Normal (Some [])).
Proof.
  intros Hl. pose proof (filteredProjects_eval_correct L c l σ Hl) as Hobs.
  destruct (filteredProjects_eval l c σ) as [[l'|e] σ'] eqn:Hrun;
    cbn in Hobs; [|done].
  split; [|split].
  - exists l', σ'. split; [done|]. by injection Hobs.
  - discriminate.
  - intros Hnil. rewrite Hnil in Hobs. exact Hobs.
Qed.

Lemma filteredProjects_eval_total_witness :
  ∃ (l' : loc) (σ' : store),
    filteredProjects_eval 0%nat "web" {[ 0%nat := array_of projects ]}
    = (Normal l', σ')
    ∧ σ' !! l' = Some (array_of (filteredProjects projects "web")).
Proof.
  refine (proj1 (filteredProjects_eval_total projects "web"
                   {[ 0%nat := array_of projects ]} 0%nat _)).
  reflexivity.
Defined.

(** C6: the evaluation has no side effect and is a function of the list and
    the tag.  Every array that was in the store, the input one included, is
    in the store afterwards with the same elements; and two evaluations
    whose input references hold equal lists, run on equal tags, return the
    same completion with equal elements, whatever else the two stores hold
    and wherever the arrays live. *)
Theorem filteredProjects_eval_pure (c : string) :
  (∀ (σ : store) (l : loc),
      σ ⊆ (filteredProjects_eval l c σ).2
      ∧ (filteredProjects_eval l c σ).2 !! l = σ !! l)
  ∧ (∀ (σ1 σ2 : store) (l1 l2 : loc),
      σ1 !! l1 = σ2 !! l2 →
      observe (filteredProjects_eval l1 c σ1)
      = observe (filteredProjects_eval l2 c σ2)).
Proof.
  split.
  - intros σ l. pose proof (filteredProjects_eval_frame l c σ) as Hsub.
    split; [done|].
    destruct (σ !! l) as [vs|] eqn:Hl.
    + by apply (lookup_weaken _ _ _ _ Hl).
    + rewrite filteredProjects_eval_unfold.
      destruct (String.eqb c "all"); [done|].
      unfold Array_filter, elements_of, mbind, Eval_bind. by rewrite Hl.
  - intros σ1 σ2 l1 l2. apply filteredProjects_eval_observe.
Qed.

Lemma filteredProjects_eval_pure_witness :
  observe (filteredProjects_eval 0%nat "mobile"
             {[ 0%nat := array_of projects ]})
  = observe (filteredProjects_eval 3%nat "mobile"
               {[ 1%nat := [VNull]; 3%nat := array_of projects ]}).
Proof.
  apply (proj2 (filteredProjects_eval_pure "mobile")). reflexivity.
Defined.

(** ** The component: selections and renders *)

Lemma step_offered (s s' : State) (e : Event) : step s e s' → offered e.
Proof. by destruct 1. Qed.

Lemma step_filter (s s' : State) (e : Event) :
  step s e s' → filter s' = selected e.
Proof. by destruct 1. Qed.

Lemma step_run (s : State) (e : Event) : offered e → step s e (run s [e]).
Proof. destruct e as [category]. intros He. by constructor. Qed.

(** The relation is a function of the start state and the events ... *)
Lemma steps_run (s s' : State) (es : list Event) :
  steps s es s' → s' = run s es.
Proof.
  induction 1 as [s|s s' s'' e es Hstep _ IH]; [done|].
  destruct Hstep. exact IH.
Qed.

(** ... and is defined on every sequence of clicks on buttons that exist. *)
Lemma run_steps (s : State) (es : list Event) :
  Forall offered es → steps s es (run s es).
Proof.
  intros Hes. revert s.
  induction Hes as [|e es He _ IH]; intros s; [constructor|].
  apply steps_next with (run s [e]); [by apply step_run|].
  destruct e. apply IH.
Qed.

Lemma run_app (s : State) (es1 es2 : list Event) :
  run s (es1 ++ es2) = run (run s es1) es2.
Proof.
  revert s. induction es1 as [|[category] es1 IH]; intros s; [done|].
  apply IH.
Qed.

Lemma run_last (s : State) (es : list Event) (e : Event) :
  filter (run s (es ++ [e])) = selected e.
Proof. rewrite run_app. by destruct e. Qed.

(** C7: after any finite sequence of clicks on the filter buttons, from the
    mounted state or any other, the component is in a state (the transitions
    never get stuck) and the grid it renders is [filteredProjects projects c]
    for the tag [c] of the last click; the earlier clicks and the earlier
    state leave no trace. *)
Theorem latest_selection_renders (s0 : State) (es : list Event) (e : Event) :
  Forall offered (es ++ [e]) →
  (∃ s, steps s0 (es ++ [e]) s)
  ∧ (∀ s, steps s0 (es ++ [e]) s →
          filter s = selected e
          ∧ render s = filteredProjects projects (selected e)).
Proof.
  intros Hes. split.
  - exists (run s0 (es ++ [e])). by apply run_steps.
  - intros s Hs. apply steps_run in Hs as ->.
    unfold render. by rewrite run_last.
Qed.

Lemma latest_selection_renders_witness :
  ∃ s, steps mount
         ([Click {| cat_id := "web"; name := "网页设计" |};
           Click {| cat_id := "all"; name := "全部" |}]
          ++ [Click {| cat_id := "mobile"; name := "移动应用" |}]) s
       ∧ id <$> render s = [1; 3; 6].
Proof.
  destruct (latest_selection_renders mount
              [Click {| cat_id := "web"; name := "网页设计" |};
               Click {| cat_id := "all"; name := "全部" |}]
              (Click {| cat_id := "mobile"; name := "移动应用" |}))
    as [[s Hs] Hlast].
  - repeat constructor; cbn; set_solver.
  - exists s. split; [exact Hs|].
    destruct (Hlast s Hs) as [_ ->]. reflexivity.
Defined.

(** C8: a freshly mounted component, before any click, has the sentinel
    ["all"] selected and renders the whole project list. *)
Theorem mount_renders_all :
  filter mount = "all"
  ∧ render mount = projects
  ∧ ∀ s, steps mount [] s → filter s = "all" ∧ render s = projects.
Proof.
  split; [done|]. split; [done|].
  intros s Hs. by apply steps_run in Hs as ->.
Qed.

(** ** The two literals against each other *)

(** C9: the buttons other than ["all"] are exactly ["web"] and ["mobile"];
    each of them is the tag of some project, and every button of the row,
    ["all"] included, shows a non-empty grid;
    ["mobile"] shows the projects 1, 3, 6 and ["web"] the projects 2, 4, 5;
    the ids are pairwise distinct and the two grids together are a
    rearrangement of the whole list, so every project is in exactly one. *)
Theorem categories_partition_projects :
  cat_id <$> List.filter (λ category, negb (String.eqb (cat_id category) "all"))
               categories
  = ["web"; "mobile"]
  ∧ (∀ button, button ∈ categories → cat_id button ≠ "all" →
       ∃ project, project ∈ projects ∧ category project = cat_id button)
  ∧ (∀ button, button ∈ categories →
       filteredProjects projects (cat_id button) ≠ [])
  ∧ id <$> filteredProjects projects "mobile" = [1; 3; 6]
  ∧ id <$> filteredProjects projects "web" = [2; 4; 5]
  ∧ NoDup (id <$> projects)
  ∧ filteredProjects projects "mobile" ++ filteredProjects projects "web"
    ≡ₚ projects.
Proof.
  split; [reflexivity|].
  split; [|split; [|split; [reflexivity|split; [reflexivity|split]]]].
  - intros c Hc Hne. unfold categories in Hc.
    rewrite !elem_of_cons, elem_of_nil in Hc.
    destruct Hc as [->| [->| [->|[]]]]; [by destruct Hne| |]; cbn.
    + unfold projects. eexists.
      split; [apply list_elem_of_further, list_elem_of_here | reflexivity].
    + unfold projects. eexists.
      split; [apply list_elem_of_here | reflexivity].
  - intros c Hc. unfold categories in Hc.
    rewrite !elem_of_cons, elem_of_nil in Hc.
    destruct Hc as [->| [->| [->|[]]]]; discriminate.
  - apply (bool_decide_unpack _). vm_compute. reflexivity.
  - apply (bool_decide_unpack _). vm_compute. reflexivity.
Qed.

(** ** Exact matching *)

Lemma elem_of_filteredProjects_other (L : list Project) (c : string)
    (p : Project) :
  c ≠ "all" → p ∈ filteredProjects L c ↔ p ∈ L ∧ category p = c.
Proof.
  intros Hc. rewrite filteredProjects_other by done.
  by rewrite list_elem_of_In, filter_In, <- list_elem_of_In, matches_spec.
Qed.

Lemma absent_not_stored (L : list Project) (c : string) :
  c ∉ category <$> L → absent c L.
Proof.
  intros Hnin. apply Forall_forall. intros p Hp Heq.
  apply Hnin. rewrite <- Heq. by apply list_elem_of_fmap_2.
Qed.

(** C10: tags are compared byte for byte.  For a tag [c] other than the
    sentinel, a project is in the view exactly when it is in the list and
    its category is [c], the same string and not one that looks alike; so a
    [c] that is not itself a stored tag of the list, however close in letter
    case or surrounding white space to one, shows nothing.  The gallery has
    projects tagged ["mobile"], selecting ["mobile"] shows them, and
    selecting ["Mobile"], ["MOBILE"], [" mobile"] or ["mobile "] shows
    nothing. *)
Theorem matching_is_exact :
  (∀ (L : list Project) (c : string) (p : Project),
      c ≠ "all" → p ∈ filteredProjects L c ↔ p ∈ L ∧ category p = c)
  ∧ (∀ (L : list Project) (c : string),
      c ≠ "all" → c ∉ category <$> L → filteredProjects L c = [])
  ∧ (∃ project, project ∈ projects ∧ category project = "mobile"
                ∧ project ∈ filteredProjects projects "mobile")
  ∧ filteredProjects projects "Mobile" = []
  ∧ filteredProjects projects "MOBILE" = []
  ∧ filteredProjects projects " mobile" = []
  ∧ filteredProjects projects "mobile " = [].
Proof.
  split; [|split; [|split; [|repeat split]]].
  - intros L c p. apply elem_of_filteredProjects_other.
  - intros L c Hc Hnin. apply filteredProjects_absent; [done|].
    by apply absent_not_stored.
  - unfold projects. eexists.
    split; [apply list_elem_of_here|]. split; [reflexivity|].
    apply elem_of_filteredProjects_other; [discriminate|].
    split; [apply list_elem_of_here | reflexivity].
Qed.

Lemma matching_is_exact_witness :
  filteredProjects projects "  WEB" = []
  ∧ (item 1 "mobile" ∈ filteredProjects [item 1 "mobile"; item 2 "Mobile"] "mobile"
     ∧ item 2 "Mobile" ∉ filteredProjects [item 1 "mobile"; item 2 "Mobile"] "mobile").
Proof.
  destruct matching_is_exact as (Hiff & Hnone & _).
  split; [|split].
  - apply (Hnone projects "  WEB"); [discriminate|].
    cbn. rewrite !not_elem_of_cons.
    repeat split; [discriminate..|apply not_elem_of_nil].
  - apply Hiff; [discriminate|].
    split; [apply list_elem_of_here | reflexivity].
  - intros [_ Hcat]%Hiff; discriminate.
Defined.

(** * Further properties of the component *)

(** ** Which projects a view holds *)

Lemma list_filter_comm {A : Type} (f g : A → bool) (l : list A) :
  List.filter f (List.filter g l) = List.filter g (List.filter f l).
Proof.
  induction l as [|x l IH]; [done|]. simpl.
  destruct (g x) eqn:Hg, (f x) eqn:Hf; simpl; rewrite ?Hg, ?Hf, IH; done.
Qed.

Lemma list_filter_same_length {A : Type} (f : A → bool) (l : list A) :
  length (List.filter f l) = length l → List.filter f l = l.
Proof.
  induction l as [|x l IH]; [done|]. simpl.
  pose proof (sublist_length _ _ (list_filter_sublist f l)) as Hle.
  destruct (f x); simpl; intros Hlen; [f_equal; apply IH|]; lia.
Qed.

(** X1: a project is in the view for tag [c] exactly when it is in the list
    and either [c] is the sentinel or the project carries [c]. *)
Theorem elem_of_filteredProjects (L : list Project) (c : string)
    (p : Project) :
  p ∈ filteredProjects L c ↔ p ∈ L ∧ (c = "all" ∨ category p = c).
Proof.
  unfold filteredProjects.
  destruct (String.eqb_spec c "all") as [->|Hc]; [by intuition|].
  rewrite list_elem_of_In, filter_In, <- list_elem_of_In, matches_spec.
  by intuition.
Qed.

(** X2: the view of a list put together from two parts is the view of the
    first part followed by the view of the second. *)
Theorem filteredProjects_app (L1 L2 : list Project) (c : string) :
  filteredProjects (L1 ++ L2) c
  = (filteredProjects L1 c ++ filteredProjects L2 c)%list.
Proof.
  unfold filteredProjects. destruct (String.eqb c "all"); [done|].
  apply List.filter_app.
Qed.

(** X3: two selections applied one after the other can be swapped. *)
Theorem filteredProjects_comm (L : list Project) (c1 c2 : string) :
  filteredProjects (filteredProjects L c1) c2
  = filteredProjects (filteredProjects L c2) c1.
Proof.
  unfold filteredProjects.
  destruct (String.eqb c1 "all"), (String.eqb c2 "all"); try done.
  apply list_filter_comm.
Qed.

(** X4: selecting one tag and then a different one, neither the sentinel,
    leaves nothing. *)
Theorem filteredProjects_disjoint (L : list Project) (c1 c2 : string) :
  c1 ≠ "all" → c2 ≠ "all" → c1 ≠ c2 →
  filteredProjects (filteredProjects L c1) c2 = [].
Proof.
  intros H1 H2 Hne. apply filteredProjects_absent; [done|].
  rewrite (filteredProjects_other L c1 H1).
  eapply Forall_impl; [apply list_filter_Forall|].
  intros p Hp%matches_spec. cbn. congruence.
Qed.

Lemma filteredProjects_disjoint_witness :
  filteredProjects (filteredProjects projects "web") "mobile" = [].
Proof. apply filteredProjects_disjoint; discriminate. Defined.

(** X5: a view is never longer than the list; it is the whole list exactly
    when the sentinel is selected or every project carries the tag; and a
    view as long as the list is the list. *)
Theorem filteredProjects_whole (L : list Project) (c : string) :
  (length (filteredProjects L c) ≤ length L)%nat
  ∧ (filteredProjects L c = L ↔ c = "all" ∨ in_category c L)
  ∧ (length (filteredProjects L c) = length L → filteredProjects L c = L).
Proof.
  split; [apply sublist_length, filteredProjects_sublist|].
  unfold filteredProjects.
  destruct (String.eqb_spec c "all") as [->|Hc]; [by intuition|].
  split; [split|].
  - intros Heq. right. apply in_category_matches. rewrite <- Heq.
    apply list_filter_Forall.
  - intros [?|Hin]; [done|]. by apply list_filter_fixed, in_category_matches.
  - apply list_filter_same_length.
Qed.

(** X6: if the ids of a list are pairwise distinct, so are the ids of every
    view of it: the [key]s of the cards drawn for a view never clash. *)
Theorem filteredProjects_keys (L : list Project) (c : string) :
  NoDup (id <$> L) →
  NoDup (card_key <$> projectGrid (filteredProjects L c)).
Proof.
  intros Hdup. unfold projectGrid. rewrite <- list_fmap_compose.
  change (card_key ∘ projectCard) with id.
  eapply sublist_NoDup; [exact Hdup|].
  apply fmap_sublist, filteredProjects_sublist.
Qed.

Lemma filteredProjects_keys_witness :
  NoDup (card_key <$> projectGrid (filteredProjects projects "web")).
Proof.
  apply filteredProjects_keys.
  apply (bool_decide_unpack _). vm_compute. reflexivity.
Defined.

(** ** Views by tag as a partition *)

(** The part of the view for [c] that one project contributes. *)
Lemma filteredProjects_cons (p : Project) (L : list Project) (c : string) :
  c ≠ "all" →
  filteredProjects (p :: L) c
  = ((if matches c p then [p] else []) ++ filteredProjects L c)%list.
Proof.
  intros Hc. rewrite !filteredProjects_other by done. simpl.
  by destruct (matches c p).
Qed.

Lemma concat_fmap_app {A B : Type} (f g : A → list B) (l : list A) :
  concat ((λ x, f x ++ g x)%list <$> l)
  ≡ₚ (concat (f <$> l) ++ concat (g <$> l))%list.
Proof.
  induction l as [|x l IH]; [done|]. cbn [fmap list_fmap concat].
  rewrite IH. rewrite <- !(assoc_L (++)%list). f_equiv.
  rewrite !(assoc_L (++)%list). f_equiv. apply Permutation_app_comm.
Qed.

Lemma concat_matches_absent (p : Project) (cs : list string) :
  category p ∉ cs →
  concat ((λ c, if matches c p then [p] else []) <$> cs) = [].
Proof.
  induction cs as [|c cs IH]; [done|].
  rewrite not_elem_of_cons. intros [Hne Hnin]. cbn [fmap list_fmap concat].
  rewrite (IH Hnin). destruct (matches c p) eqn:Hm; [|done].
  by apply matches_spec in Hm.
Qed.

Lemma concat_matches_once (p : Project) (cs : list string) :
  NoDup cs → category p ∈ cs →
  concat ((λ c, if matches c p then [p] else []) <$> cs) = [p].
Proof.
  induction 1 as [|c cs Hnin Hdup IH]; [by rewrite elem_of_nil|].
  rewrite elem_of_cons. intros Hin. cbn [fmap list_fmap concat].
  destruct (matches c p) eqn:Hm.
  - apply matches_spec in Hm. subst c.
    by rewrite (concat_matches_absent p cs Hnin).
  - destruct Hin as [Heq|Hin].
    + apply matches_spec in Heq. congruence.
    + by rewrite (IH Hin).
Qed.

(** X7: for tags [cs] that are pairwise distinct and do not include the
    sentinel, and a list whose projects all carry one of them, the views for
    the tags of [cs], one after the other, are a rearrangement of the list:
    every project is in exactly one view. *)
Theorem filteredProjects_partition (cs : list string) (L : list Project) :
  NoDup cs → "all" ∉ cs → Forall (λ p, category p ∈ cs) L →
  concat (filteredProjects L <$> cs) ≡ₚ L.
Proof.
  intros Hdup Hall. induction 1 as [|p L Hp _ IH].
  - induction cs as [|c cs IHcs]; [done|]. cbn [fmap list_fmap concat].
    apply NoDup_cons in Hdup as [_ Hdup]. apply not_elem_of_cons in Hall as [Hc Hall].
    rewrite (filteredProjects_other [] c) by done. apply (IHcs Hdup Hall).
  - rewrite (list_fmap_ext (filteredProjects (p :: L))
               (λ c, (if matches c p then [p] else []) ++ filteredProjects L c)%list).
    + rewrite concat_fmap_app, (concat_matches_once p cs Hdup Hp), IH. done.
    + intros i c Hc. apply filteredProjects_cons. intros ->.
      apply Hall. by eapply list_elem_of_lookup_2.
Qed.

Lemma filteredProjects_partition_witness :
  concat (filteredProjects projects <$> ["web"; "mobile"]) ≡ₚ projects.
Proof.
  apply filteredProjects_partition.
  - apply (bool_decide_unpack _). vm_compute. reflexivity.
  - rewrite !not_elem_of_cons. repeat split; [discriminate..|apply not_elem_of_nil].
  - unfold projects. repeat constructor; cbn; rewrite !elem_of_cons; auto.
Defined.

(** ** The filter row *)

Lemma highlighted_filterButton (f : string) (category : Category) :
  highlighted
    {| key := cat_id category; className := buttonClassName f category;
       label := name category |}
  = String.eqb f (cat_id category).
Proof.
  unfold highlighted, buttonClassName. cbn [className].
  destruct (String.eqb f (cat_id category)); [apply String.eqb_refl | done].
Qed.

Lemma highlighted_keys (cs : list Category) (f : string) :
  key <$> List.filter highlighted (filterButtons cs f)
  = List.filter (String.eqb f) (cat_id <$> cs).
Proof.
  induction cs as [|category cs IH]; [done|].
  change (filterButtons (category :: cs) f)
    with ({| key := cat_id category; className := buttonClassName f category;
             label := name category |} :: filterButtons cs f).
  cbn [List.filter fmap list_fmap]. rewrite highlighted_filterButton.
  destruct (String.eqb f (cat_id category)); cbn [fmap list_fmap key];
    by rewrite <- IH.
Qed.

Lemma list_filter_eqb_absent (f : string) (ids : list string) :
  f ∉ ids → List.filter (String.eqb f) ids = [].
Proof.
  intros Hnin. apply list_filter_none, Forall_forall. intros i Hi.
  destruct (String.eqb_spec f i) as [->|]; [by destruct Hnin | done].
Qed.

Lemma list_filter_eqb_once (f : string) (ids : list string) :
  NoDup ids → f ∈ ids → List.filter (String.eqb f) ids = [f].
Proof.
  induction 1 as [|i ids Hnin Hdup IH]; [by rewrite elem_of_nil|].
  rewrite elem_of_cons. intros Hin. cbn [List.filter].
  destruct (String.eqb_spec f i) as [->|Hne].
  - by rewrite list_filter_eqb_absent.
  - destruct Hin as [?|Hin]; [done | by apply IH].
Qed.

(** X8: in a filter row whose category ids are pairwise distinct, the
    buttons drawn as selected are the one whose id is the selected value,
    if the row has it, and none otherwise: never two at once. *)
Theorem highlighted_at_most_one (cs : list Category) (f : string) :
  NoDup (cat_id <$> cs) →
  key <$> List.filter highlighted (filterButtons cs f)
  = if bool_decide (f ∈ cat_id <$> cs) then [f] else [].
Proof.
  intros Hdup. rewrite highlighted_keys. case_bool_decide.
  - by apply list_filter_eqb_once.
  - by apply list_filter_eqb_absent.
Qed.

Lemma highlighted_at_most_one_witness :
  key <$> List.filter highlighted (filterButtons categories "web") = ["web"].
Proof.
  apply (highlighted_at_most_one categories "web").
  apply (bool_decide_unpack _). vm_compute. reflexivity.
Defined.

(** ** Invariants of the running component *)

Lemma steps_filter_offered (s s' : State) (es : list Event) :
  filter s ∈ cat_id <$> categories → steps s es s' →
  filter s' ∈ cat_id <$> categories.
Proof.
  intros Hs Hsteps. induction Hsteps as [s|s s' s'' e es Hstep _ IH]; [done|].
  apply IH. destruct Hstep as [s category Hin].
  change (filter (onClick category s)) with (cat_id category).
  by apply list_elem_of_fmap_2.
Qed.

Lemma reachable_filter (s : State) :
  reachable s → filter s = "all" ∨ filter s = "web" ∨ filter s = "mobile".
Proof.
  intros [es Hsteps].
  assert (filter s ∈ cat_id <$> categories) as Hin.
  { eapply steps_filter_offered; [|exact Hsteps].
    cbn. rewrite !elem_of_cons. auto. }
  cbn in Hin. rewrite !elem_of_cons, elem_of_nil in Hin. tauto.
Qed.

(** X9: in every state the component can reach, the selected value is the
    id of one of its buttons, and exactly one button is drawn as selected,
    the one with that id. *)
Theorem reachable_one_highlighted (s : State) :
  reachable s →
  filter s ∈ cat_id <$> categories
  ∧ key <$> List.filter highlighted (filterButtons categories (filter s))
    = [filter s].
Proof.
  intros Hs. apply reachable_filter in Hs.
  destruct s as [f]. cbn in *.
  destruct Hs as [->| [->| ->]]; (split; [|reflexivity]);
    rewrite !elem_of_cons; auto.
Qed.

Lemma reachable_one_highlighted_witness :
  key <$> List.filter highlighted
            (filterButtons categories
               (filter (run mount [Click {| cat_id := "web"; name := "网页设计" |}])))
  = ["web"].
Proof.
  refine (proj2 (reachable_one_highlighted
                   (run mount [Click {| cat_id := "web"; name := "网页设计" |}]) _)).
  eexists. apply run_steps. repeat constructor.
Defined.

(** X10: in every state the component can reach, the grid is not empty, the
    [key]s of its cards are pairwise distinct, and so are the [key]s of the
    chips inside each card. *)
Theorem reachable_grid (s : State) :
  reachable s →
  projectGrid (render s) ≠ []
  ∧ NoDup (card_key <$> projectGrid (render s))
  ∧ Forall (λ card, NoDup (chips card)) (projectGrid (render s)).
Proof.
  intros Hs. apply reachable_filter in Hs.
  destruct s as [f]. unfold render. cbn [filter] in *.
  destruct Hs as [->| [->| ->]];
    (split; [discriminate|split]);
    apply (bool_decide_unpack _); vm_compute; reflexivity.
Qed.

Lemma reachable_grid_witness :
  projectGrid (render mount) ≠ [].
Proof.
  refine (proj1 (reachable_grid mount _)). exists []. constructor.
Defined.

(** ** References: which array comes back *)

(** X11: with the sentinel selected the evaluation hands back the reference
    it was given, the same array and not a copy, and the store is as it was;
    with any other tag it hands back a reference that was not in the store
    before, so a different array from the input even when every project
    carries the tag, and the store differs by that one new array. *)
Theorem filteredProjects_eval_alias (L : list Project) (c : string)
    (σ : store) (l : loc) :
  σ !! l = Some (array_of L) →
  (c = "all" → filteredProjects_eval l c σ = (Normal l, σ))
  ∧ (c ≠ "all" →
     ∃ l' : loc,
       l' ≠ l ∧ σ !! l' = None
       ∧ filteredProjects_eval l c σ
         = (Normal l', <[l' := array_of (filteredProjects L c)]> σ)).
Proof.
  intros Hl. split; [by intros ->|]. intros Hc.
  exists (fresh (dom σ)). pose proof (fresh_unused σ) as Hfresh.
  split; [congruence|]. split; [done|].
  rewrite filteredProjects_eval_unfold, (filteredProjects_other L c Hc).
  destruct (String.eqb_spec c "all") as [?|_]; [done|].
  unfold Array_filter, elements_of, new_array, mbind, Eval_bind.
  by rewrite Hl, filter_elements_array_of.
Qed.

Lemma filteredProjects_eval_alias_witness :
  ∃ l' : loc,
    l' ≠ 0%nat
    ∧ ({[ 0%nat := array_of [item 1 "web"] ]} : store) !! l' = None
    ∧ filteredProjects_eval 0%nat "web" {[ 0%nat := array_of [item 1 "web"] ]}
      = (Normal l',
         <[l' := array_of (filteredProjects [item 1 "web"] "web")]>
           {[ 0%nat := array_of [item 1 "web"] ]}).
Proof.
  refine (proj2 (filteredProjects_eval_alias [item 1 "web"] "web"
                   {[ 0%nat := array_of [item 1 "web"] ]} 0%nat _) _).
  - reflexivity.
  - discriminate.
Defined.

(** * Properties of the validators *)

(** ** The matcher against the meaning of patterns *)

Lemma lang_nil_nullable (r : regex) (s : code_units) :
  lang r s → s = [] → nullable r = true.
Proof.
  induction 1 as [|f u Hu|r1 r2 s1 s2 _ IH1 _ IH2|r1 r2 s _ IH|r1 r2 s _ IH
                 |r|r s1 s2 _ _ _ _]; intros Hnil; cbn; try done.
  - apply app_eq_nil in Hnil as [-> ->]. by rewrite IH1, IH2.
  - by rewrite IH.
  - rewrite IH by done. apply orb_true_r.
Qed.

Lemma nullable_lang (r : regex) : nullable r = true ↔ lang r [].
Proof.
  split; [|intros H; by eapply lang_nil_nullable].
  induction r as [| |f|r1 IH1 r2 IH2|r1 IH1 r2 IH2|r IH]; cbn; try done.
  - constructor.
  - intros [H1 H2]%andb_true_iff.
    apply (lang_Seq r1 r2 [] []); auto.
  - intros [H|H]%orb_true_iff; [apply lang_Alt_l | apply lang_Alt_r]; auto.
  - constructor.
Qed.

Lemma deriv_sound (u : N) (r : regex) (s : code_units) :
  lang (deriv u r) s → lang r (u :: s).
Proof.
  revert s. induction r as [| |f|r1 IH1 r2 IH2|r1 IH1 r2 IH2|r IH];
    intros s; cbn [deriv]; intros H.
  - inversion H.
  - inversion H.
  - destruct (f u) eqn:Hu; inversion H; subst. by constructor.
  - inversion H as [| | |? ? ? Hl|? ? ? Hr| |]; subst.
    + inversion Hl as [| |? ? s1 s2 H1 H2| | | |]; subst.
      apply (lang_Seq r1 r2 (u :: s1) s2); auto.
    + destruct (nullable r1) eqn:Hn; [|inversion Hr].
      apply (lang_Seq r1 r2 [] (u :: s)); [by apply nullable_lang | auto].
  - inversion H; subst; [apply lang_Alt_l | apply lang_Alt_r]; auto.
  - inversion H as [| |? ? s1 s2 H1 H2| | | |]; subst.
    apply (lang_Star_cons r (u :: s1) s2); auto.
Qed.

Lemma deriv_complete (u : N) (r : regex) (t s : code_units) :
  lang r t → t = u :: s → lang (deriv u r) s.
Proof.
  intros H. revert s.
  induction H as [|f v Hv|r1 r2 s1 s2 H1 IH1 H2 IH2|r1 r2 t _ IH|r1 r2 t _ IH
                 |r|r s1 s2 H1 IH1 H2 IH2]; intros s Heq; cbn [deriv];
    try discriminate.
  - injection Heq as -> <-. rewrite Hv. constructor.
  - destruct s1 as [|v s1]; cbn in Heq.
    + apply lang_Alt_r. rewrite (lang_nil_nullable r1 [] H1 eq_refl). auto.
    + injection Heq as -> <-. apply lang_Alt_l. constructor; auto.
  - apply lang_Alt_l; auto.
  - apply lang_Alt_r; auto.
  - destruct s1 as [|v s1]; cbn in Heq.
    + apply (IH2 s Heq).
    + injection Heq as -> <-. constructor; auto.
Qed.

Lemma accepts_lang (r : regex) (s : code_units) :
  accepts r s = true ↔ lang r s.
Proof.
  revert r. induction s as [|u s IH]; intros r; cbn [accepts].
  - apply nullable_lang.
  - rewrite IH. split; [apply deriv_sound|].
    intros H. by eapply deriv_complete.
Qed.

Lemma lang_Star_Class (f : N → bool) (s : code_units) :
  lang (Star (Class f)) s ↔ Forall (λ u, f u = true) s.
Proof.
  split.
  - intros H. remember (Star (Class f)) as r eqn:Hr.
    induction H as [| | | | | |r s1 s2 H1 _ _ IH2]; try discriminate.
    + constructor.
    + injection Hr as ->. inversion H1; subst. constructor; auto.
  - induction 1 as [|u s Hu _ IH]; [constructor|].
    apply (lang_Star_cons (Class f) [u] s); [by constructor | done].
Qed.

Lemma lang_Plus_Class (f : N → bool) (s : code_units) :
  lang (Plus (Class f)) s ↔ s ≠ [] ∧ Forall (λ u, f u = true) s.
Proof.
  unfold Plus. split.
  - intros H. inversion H as [| |? ? s1 s2 H1 H2| | | |]; subst.
    inversion H1; subst. apply lang_Star_Class in H2.
    split; [done | by constructor].
  - intros [Hne Hall]. destruct Hall as [|u s Hu Hall]; [done|].
    apply (lang_Seq (Class f) (Star (Class f)) [u] s); [by constructor|].
    by apply lang_Star_Class.
Qed.

Lemma lang_any (s : code_units) : lang (Star (Class (λ _, true))) s.
Proof. apply lang_Star_Class, Forall_true. done. Qed.

Lemma lang_anywhere_Class (f : N → bool) (s : code_units) :
  lang (anywhere (Class f)) s ↔ Exists (λ u, f u = true) s.
Proof.
  unfold anywhere. split.
  - intros H. inversion H as [| |? ? s1 s2 _ H2| | | |]; subst.
    inversion H2 as [| |? ? s3 s4 H3 _| | | |]; subst.
    inversion H3; subst.
    apply Exists_app. right. by apply Exists_cons_hd.
  - intros (u & Hin & Hu)%Exists_exists.
    apply list_elem_of_split in Hin as (s1 & s2 & ->).
    apply lang_Seq; [apply lang_any|].
    apply (lang_Seq (Class f) _ [u] s2); [by constructor | apply lang_any].
Qed.

(** An unanchored class pattern tests whether some unit is in the class. *)
Lemma RegExp_test_class (f : N → bool) (str : code_units) :
  RegExp_test (anywhere (Class f)) str = true ↔ Exists (λ u, f u = true) str.
Proof. unfold RegExp_test. by rewrite accepts_lang, lang_anywhere_Class. Qed.

(** ** [validateEmail] *)

Lemma lang_unit (v : N) (s : code_units) :
  lang (Class (N.eqb v)) s ↔ s = [v].
Proof.
  split.
  - intros H. inversion H as [|f u Hu| | | | |]; subst.
    by apply N.eqb_eq in Hu as ->.
  - intros ->. constructor. apply N.eqb_refl.
Qed.

Lemma lang_emailRegex (email : code_units) :
  lang emailRegex email ↔
  ∃ a b c : code_units,
    email = (a ++ 64%N :: b ++ 46%N :: c)%list
    ∧ (a ≠ [] ∧ Forall (λ u, not_space_at u = true) a)
    ∧ (b ≠ [] ∧ Forall (λ u, not_space_at u = true) b)
    ∧ (c ≠ [] ∧ Forall (λ u, not_space_at u = true) c).
Proof.
  unfold emailRegex. split.
  - intros H.
    inversion H as [| |? ? a s1 Ha H1| | | |]; subst.
    inversion H1 as [| |? ? at_ s2 Hat H2| | | |]; subst.
    inversion H2 as [| |? ? b s3 Hb H3| | | |]; subst.
    inversion H3 as [| |? ? dot c Hdot Hc| | | |]; subst.
    apply lang_unit in Hat as ->. apply lang_unit in Hdot as ->.
    exists a, b, c. by rewrite <- !lang_Plus_Class.
  - intros (a & b & c & -> & Ha & Hb & Hc).
    rewrite <- lang_Plus_Class in Ha, Hb, Hc.
    apply lang_Seq; [done|].
    apply (lang_Seq _ _ [64%N]); [by apply lang_unit|].
    apply lang_Seq; [done|].
    apply (lang_Seq _ _ [46%N]); [by apply lang_unit | done].
Qed.

(** X12: [validateEmail] accepts exactly the strings of the shape
    [a @ b . c] in which [a], [b] and [c] are not empty and hold neither
    white space nor [@]. *)
Theorem validateEmail_shape (email : code_units) :
  validateEmail email = true ↔
  ∃ a b c : code_units,
    email = (a ++ 64%N :: b ++ 46%N :: c)%list
    ∧ (a ≠ [] ∧ Forall (λ u, not_space_at u = true) a)
    ∧ (b ≠ [] ∧ Forall (λ u, not_space_at u = true) b)
    ∧ (c ≠ [] ∧ Forall (λ u, not_space_at u = true) c).
Proof.
  unfold validateEmail, RegExp_test. rewrite accepts_lang.
  apply lang_emailRegex.
Qed.

Lemma not_space_at_inv (u : N) :
  not_space_at u = true → white_space u = false ∧ (u =? 64)%N = false.
Proof. unfold not_space_at. by intros [??]%negb_true_iff%orb_false_iff. Qed.

Lemma no_at (s : code_units) :
  Forall (λ u, not_space_at u = true) s → List.filter (N.eqb 64) s = [].
Proof.
  intros H. apply list_filter_none. eapply Forall_impl; [exact H|].
  intros u [_ Hu]%not_space_at_inv. by rewrite N.eqb_sym.
Qed.

Lemma no_space (s : code_units) :
  Forall (λ u, not_space_at u = true) s →
  Forall (λ u, white_space u = false) s.
Proof.
  intros H. eapply Forall_impl; [exact H|].
  by intros u [? _]%not_space_at_inv.
Qed.

(** X13: a string that [validateEmail] accepts has exactly one [@], no white
    space anywhere, and at least five units. *)
Theorem validateEmail_accepts_only (email : code_units) :
  validateEmail email = true →
  List.filter (N.eqb 64) email = [64%N]
  ∧ Forall (λ u, white_space u = false) email
  ∧ (5 ≤ length email)%nat.
Proof.
  unfold validateEmail, RegExp_test. rewrite accepts_lang.
  intros (a & b & c & -> & [Ha Fa] & [Hb Fb] & [Hc Fc])%lang_emailRegex.
  split; [|split].
  - rewrite List.filter_app. cbn [List.filter]. rewrite N.eqb_refl.
    rewrite List.filter_app. cbn [List.filter].
    change (64 =? 46)%N with false.
    by rewrite !no_at.
  - apply Forall_app; split; [by apply no_space|].
    apply Forall_cons; split; [reflexivity|].
    apply Forall_app; split; [by apply no_space|].
    apply Forall_cons; split; [reflexivity | by apply no_space].
  - rewrite !length_app. cbn [length]. rewrite length_app. cbn [length].
    destruct a, b, c; cbn [length]; try done; lia.
Qed.

Lemma validateEmail_accepts_only_witness :
  List.filter (N.eqb 64) (units "user@example.com") = [64%N].
Proof.
  refine (proj1 (validateEmail_accepts_only (units "user@example.com") _)).
  reflexivity.
Defined.

(** The two calls shown with the function. *)
Example validateEmail_usage :
  validateEmail (units "user@example.com") = true
  ∧ validateEmail (units "invalid-email") = false.
Proof. split; reflexivity. Qed.

(** ** [validatePassword] *)

Lemma push_if_nil (test : bool) (message : string) (errs : list string) :
  push_if test message errs = [] ↔ test = false ∧ errs = [].
Proof.
  unfold push_if. destruct test.
  - split; [|by intros [??]]. by intros [_ ?]%app_eq_nil.
  - by intuition.
Qed.

Lemma push_if_sublist (test : bool) (message : string)
    (errs all : list string) :
  errs `sublist_of` all →
  push_if test message errs `sublist_of` (all ++ [message])%list.
Proof.
  intros H. unfold push_if. destruct test.
  - by apply sublist_app.
  - by apply sublist_inserts_r.
Qed.

Lemma missing_class (required : bool) (f : N → bool) (password : code_units) :
  required && negb (RegExp_test (anywhere (Class f)) password) = false
  ↔ (required → Exists (λ u, f u) password).
Proof.
  destruct required; cbn; [|by intuition].
  rewrite negb_false_iff, RegExp_test_class. split.
  - intros H _. eapply Exists_impl; [exact H|]. by intros u ->.
  - intros H. eapply Exists_impl; [exact (H I)|].
    intros u Hu. by apply Is_true_true.
Qed.

Lemma validatePassword_errors_nil (Number_toString : Z → string)
    (password : code_units) (options : option PasswordOptions) :
  errors (validatePassword Number_toString password options) = []
  ↔ meets password (default no_options options).
Proof.
  unfold validatePassword, meets. cbn [errors].
  rewrite !push_if_nil, !missing_class, Z.ltb_ge. by intuition.
Qed.

Lemma isValid_errors (Number_toString : Z → string)
    (password : code_units) (options : option PasswordOptions) :
  isValid (validatePassword Number_toString password options) = true
  ↔ errors (validatePassword Number_toString password options) = [].
Proof.
  change (isValid (validatePassword Number_toString password options))
    with (Nat.eqb
            (length (errors (validatePassword Number_toString password options)))
            0).
  rewrite Nat.eqb_eq. apply length_zero_iff_nil.
Qed.

(** X14: [validatePassword] reports a password as valid exactly when it
    meets every requirement in force: at least [minLength] units (8 when
    not given; a password of exactly that length passes), and, for each of
    the four classes not switched off, at least one unit of the class. *)
Theorem validatePassword_isValid (Number_toString : Z → string)
    (password : code_units) (options : option PasswordOptions) :
  isValid (validatePassword Number_toString password options) = true
  ↔ meets password (default no_options options).
Proof. by rewrite isValid_errors, validatePassword_errors_nil. Qed.

(** X15: a password that is valid stays valid when units are added to it,
    at either end or in between, under the same options. *)
Theorem validatePassword_extend (Number_toString : Z → string)
    (password longer : code_units) (options : option PasswordOptions) :
  password `sublist_of` longer →
  isValid (validatePassword Number_toString password options) = true →
  isValid (validatePassword Number_toString longer options) = true.
Proof.
  intros Hsub Hvalid.
  apply isValid_errors, validatePassword_errors_nil.
  apply isValid_errors, validatePassword_errors_nil in Hvalid.
  destruct Hvalid as (Hlen & Hu & Hl & Hd & Hs).
  assert (∀ f : N → bool, Exists (λ u, f u) password → Exists (λ u, f u) longer)
    as Hex.
  { intros f (u & Hin & Hu')%Exists_exists. apply Exists_exists.
    exists u. split; [|done]. by eapply elem_of_sublist. }
  pose proof (sublist_length _ _ Hsub).
  repeat split; [lia|auto..].
Qed.

Lemma validatePassword_extend_witness :
  isValid (validatePassword (λ _, "8") (units "xAbcdef1!y") None) = true.
Proof.
  apply (validatePassword_extend _ (units "Abcdef1!")).
  - change (units "xAbcdef1!y")
      with (120%N :: (units "Abcdef1!" ++ [121%N])%list).
    by apply sublist_cons, sublist_inserts_r.
  - reflexivity.
Defined.

(** X16: the messages of a result are a sub-sequence of the five messages
    in the order of the checks, and the five are pairwise different: a
    result holds at most five messages, none of them twice, length first. *)
Theorem validatePassword_errors_ordered (Number_toString : Z → string)
    (password : code_units) (options : option PasswordOptions) :
  errors (validatePassword Number_toString password options)
  `sublist_of` passwordMessages Number_toString
                 (default 8 (minLength (default no_options options)))
  ∧ NoDup (passwordMessages Number_toString
             (default 8 (minLength (default no_options options)))).
Proof.
  split.
  - unfold validatePassword, passwordMessages. cbn [errors].
    apply (push_if_sublist _ _ _ [_; _; _; _]).
    apply (push_if_sublist _ _ _ [_; _; _]).
    apply (push_if_sublist _ _ _ [_; _]).
    apply (push_if_sublist _ _ _ [_]).
    by apply (push_if_sublist _ _ [] []).
  - unfold passwordMessages.
    set (n := Number_toString _).
    assert (∀ rest tail : string,
              "Password must be at least " +:+ rest
              ≠ "Password must contain at least one " +:+ tail) as Hne.
    { intros rest tail. cbn. discriminate. }
    apply NoDup_cons. split.
    + rewrite !elem_of_cons, elem_of_nil.
      intros [H|[H|[H|[H|[]]]]]; revert H;
        [apply (Hne _ "uppercase letter") | apply (Hne _ "lowercase letter")
        | apply (Hne _ "number") | apply (Hne _ "special character")].
    + apply (bool_decide_unpack _). vm_compute. reflexivity.
Qed.

(** The call shown with the function.  The password has eight units, so the
    length check passes and three messages come back. *)
Example validatePassword_usage (Number_toString : Z → string) :
  validatePassword Number_toString (units "weakpass") None
  = {| isValid := false;
       errors := [ "Password must contain at least one uppercase letter";
                   "Password must contain at least one number";
                   "Password must contain at least one special character" ] |}.
Proof. reflexivity. Qed.
